(** * RateLimiter: a fixed-window request counter

    Shallow embedding of [src/utils/rate-limiter.ts] (class [RateLimiter])
    and the properties of its public operations.

    Modelling decisions.
    - A TypeScript [number] is modelled as an integer [Z]: timestamps come
      from [Date.now()], counts start at 1 and grow by 1, and the
      configuration is taken to be integral ([Fractional] has the class
      with a rational quota).  IEEE-754 effects (NaN, precision loss
      above 2^53) are outside the model.
    - [Map<string, RateLimitRecord>] is a [gmap string RateLimitRecord]; the
      insertion order of a JS Map is never observed by the class.
    - A method is a state transformer over the instance that may end
      normally or by a thrown exception.  Reading a property of
      [undefined] is the only way the class could throw.
    - [Date.now()] is an input: every call site of [Date.now()] receives
      its reading as an explicit argument, so [isRateLimited] takes two
      readings, the one made inside [cleanup] and the one of its own body.
    - A record object is reachable only through its key: [set] stores a
      fresh object literal and no reference leaves the class.  The
      in-place update [record.count++] is therefore an update of the entry
      under the key the record was fetched with. *)

From stdpp Require Import base decidable option numbers list strings gmap fin_maps.

Open Scope Z_scope.

(** ** Data model *)

Record RateLimitRecord : Type := mkRecord {
  count : Z;
  resetTime : Z
}.

Record RateLimiter : Type := mkLimiter {
  store : gmap string RateLimitRecord;
  windowMs : Z;
  maxRequests : Z
}.

Definition with_store (st : gmap string RateLimitRecord) (this : RateLimiter)
  : RateLimiter :=
  {| store := st; windowMs := windowMs this; maxRequests := maxRequests this |}.

(** ** Methods: state plus exceptions *)

Inductive JsError : Type := TypeError.

Inductive Outcome (A : Type) : Type :=
| Normal (a : A)
| Thrown (e : JsError).
Arguments Normal {A} a.
Arguments Thrown {A} e.

Definition Method (A : Type) : Type := RateLimiter → Outcome (A * RateLimiter).

#[export] Instance method_ret : MRet Method :=
  λ A a this, Normal (a, this).

#[export] Instance method_bind : MBind Method :=
  λ A B k m this,
    match m this with
    | Normal (a, this') => k a this'
    | Thrown e => Thrown e
    end.

Definition throw {A : Type} (e : JsError) : Method A := λ _, Thrown e.

Definition this_windowMs : Method Z := λ this, Normal (windowMs this, this).
Definition this_maxRequests : Method Z := λ this, Normal (maxRequests this, this).

(** [this.store.get(k)]: the record, or [undefined] as [None]. *)
Definition store_get (k : string) : Method (option RateLimitRecord) :=
  λ this, Normal (store this !! k, this).

(** [this.store.set(k, r)] *)
Definition store_set (k : string) (r : RateLimitRecord) : Method unit :=
  λ this, Normal ((), with_store (<[k := r]> (store this)) this).

(** [this.store.delete(k)] *)
Definition store_delete (k : string) : Method unit :=
  λ this, Normal ((), with_store (delete k (store this)) this).

(** [this.store.clear()] *)
Definition store_clear : Method unit :=
  λ this, Normal ((), with_store ∅ this).

(** [this.store.entries()].  The iterator of a JS Map is live, but the loop
    of [cleanup] deletes only the entry it is visiting, which the
    iteration never comes back to, so the entries are those of the store
    when the loop starts. *)
Definition store_entries : Method (list (string * RateLimitRecord)) :=
  λ this, Normal (map_to_list (store this), this).

(** [record.f] for a [record] that may be [undefined]. *)
Definition prop {V : Type} (f : RateLimitRecord → V)
    (record : option RateLimitRecord) : Method V :=
  match record with
  | Some r => mret (f r)
  | None => throw TypeError
  end.

(** Truthiness of [record]: an object is truthy, [undefined] is falsy. *)
Definition truthy (record : option RateLimitRecord) : bool :=
  match record with
  | Some _ => true
  | None => false
  end.

(** [record.count++] on the record fetched under key [k]. *)
Definition count_incr (k : string) (record : option RateLimitRecord)
  : Method unit :=
  match record with
  | Some r => store_set k {| count := count r + 1; resetTime := resetTime r |}
  | None => throw TypeError
  end.

(** [for (const x of xs) body(x)] *)
Fixpoint for_of {A : Type} (xs : list A) (body : A → Method unit)
  : Method unit :=
  match xs with
  | [] => mret ()
  | x :: xs' => body x ;; for_of xs' body
  end.

(** ** The class *)

Definition default_windowMs : Z := 60000.
Definition default_maxRequests : Z := 100.

(** [constructor(windowMs = 60000, maxRequests = 100)]; an omitted
    argument is [None]. *)
Definition constructor (w m : option Z) : RateLimiter :=
  {| store := ∅;
     windowMs := default default_windowMs w;
     maxRequests := default default_maxRequests m |}.

(** [cleanup()], with [now] the reading of its [Date.now()]. *)
Definition cleanup (now : Z) : Method unit :=
  entries ← store_entries;
  for_of entries (λ '(key, record),
    if decide (now > resetTime record) then store_delete key else mret ()).

(** [isRateLimited(identifier)]: [t_sweep] is the clock reading made by
    [cleanup], [now] the one made by the body. *)
Definition isRateLimited (t_sweep now : Z) (identifier : string) : Method bool :=
  cleanup t_sweep ;;
  record ← store_get identifier;
  expired ← (if negb (truthy record) then mret true
             else rt ← prop resetTime record; mret (bool_decide (now > rt)));
  if expired : bool then
    w ← this_windowMs;
    store_set identifier {| count := 1; resetTime := now + w |} ;;
    mret false
  else
    c ← prop count record;
    m ← this_maxRequests;
    if decide (c >= m) then mret true
    else count_incr identifier record ;; mret false.

(** [getCount(identifier)] *)
Definition getCount (identifier : string) : Method Z :=
  record ← store_get identifier;
  if truthy record then prop count record else mret 0.

(** [reset(identifier)] *)
Definition reset (identifier : string) : Method unit :=
  store_delete identifier.

(** [clear()] *)
Definition clear : Method unit := store_clear.

(** ** Derived notions used by the statements *)

(** The store left by a sweep at time [t]: what [cleanup] computes. *)
Definition swept (t : Z) (st : gmap string RateLimitRecord)
  : gmap string RateLimitRecord :=
  filter (λ kr, ¬ t > resetTime kr.2) st.

(** The loop of [cleanup] over a list of entries, on the store alone. *)
Definition sweep_entries (t : Z) (l : list (string * RateLimitRecord))
    (st : gmap string RateLimitRecord) : gmap string RateLimitRecord :=
  foldl (λ acc kr, if decide (t > resetTime kr.2) then delete kr.1 acc else acc)
        st l.

(** The record written when a window opens at time [now]. *)
Definition fresh (now : Z) (this : RateLimiter) : RateLimitRecord :=
  {| count := 1; resetTime := now + windowMs this |}.

(** The record after one more admitted request. *)
Definition bumped (r : RateLimitRecord) : RateLimitRecord :=
  {| count := count r + 1; resetTime := resetTime r |}.

(** A record is live at time [t] when [t] has not passed its [resetTime]. *)
Definition live (t : Z) (r : RateLimitRecord) : Prop := t <= resetTime r.

(** The decision procedure in the words of the specification (steps 1 to
    5 of its algorithm), which performs no sweep: look the record up; if
    there is none or [now > resetTime], write a fresh record and admit;
    else if [count >= maxRequests], deny and leave the record alone; else
    increment the count and admit. *)
Definition isRateLimited_no_sweep (now : Z) (identifier : string)
  : Method bool :=
  λ this,
    match store this !! identifier with
    | None =>
        Normal (false, with_store (<[identifier := fresh now this]> (store this)) this)
    | Some record =>
        if decide (now > resetTime record) then
          Normal (false, with_store (<[identifier := fresh now this]> (store this)) this)
        else if decide (count record >= maxRequests this) then
          Normal (true, this)
        else
          Normal (false, with_store (<[identifier := bumped record]> (store this)) this)
    end.

(** A sequence of [isRateLimited(identifier)] calls, one per pair of clock
    readings, collecting the answers. *)
Fixpoint requests (identifier : string) (clock : list (Z * Z))
  : Method (list bool) :=
  match clock with
  | [] => mret []
  | (t_sweep, now) :: clock' =>
      b ← isRateLimited t_sweep now identifier;
      bs ← requests identifier clock';
      mret (b :: bs)
  end.

(** Calls a client (or the class itself, for [cleanup]) can make. *)
Inductive Call : Type :=
| CallIsRateLimited (t_sweep now : Z) (identifier : string)
| CallGetCount (identifier : string)
| CallReset (identifier : string)
| CallClear
| CallCleanup (now : Z).

Inductive Value : Type :=
| VBoolean (b : bool)
| VNumber (n : Z)
| VUndefined.

Definition call (c : Call) : Method Value :=
  match c with
  | CallIsRateLimited t_sweep now identifier =>
      b ← isRateLimited t_sweep now identifier; mret (VBoolean b)
  | CallGetCount identifier => n ← getCount identifier; mret (VNumber n)
  | CallReset identifier => reset identifier ;; mret VUndefined
  | CallClear => clear ;; mret VUndefined
  | CallCleanup now => cleanup now ;; mret VUndefined
  end.

Fixpoint calls (cs : list Call) : Method (list Value) :=
  match cs with
  | [] => mret []
  | c :: cs' => v ← call c; vs ← calls cs'; mret (v :: vs)
  end.

(** The value a method returns, when it ends normally. *)
Definition returned {A : Type} (o : Outcome (A * RateLimiter)) : option A :=
  match o with
  | Normal (a, _) => Some a
  | Thrown _ => None
  end.

(** What one [isRateLimited] call at time [now] answers, and the record
    it leaves for the identifier, given the record [o] found after the
    sweep. *)
Definition verdict (now : Z) (this : RateLimiter) (o : option RateLimitRecord)
  : bool * RateLimitRecord :=
  match o with
  | None => (false, fresh now this)
  | Some r =>
      if decide (now > resetTime r) then (false, fresh now this)
      else if decide (count r >= maxRequests this) then (true, r)
      else (false, bumped r)
  end.

(** Same configuration. *)
Definition same_config (this1 this2 : RateLimiter) : Prop :=
  windowMs this1 = windowMs this2 ∧ maxRequests this1 = maxRequests this2.

(** Every stored count lies between 1 and [maxRequests]. *)
Definition counts_bounded (this : RateLimiter) : Prop :=
  ∀ id r, store this !! id = Some r → 1 <= count r <= maxRequests this.

(** [this1] knows about [id] what [this2] knows, except that it may have
    forgotten a record that every call of [clock] will find expired. *)
Definition forgot_only_expired (id : string) (clock : list (Z * Z))
    (this1 this2 : RateLimiter) : Prop :=
  same_config this1 this2
  ∧ (store this1 !! id = store this2 !! id
     ∨ (store this1 !! id = None
        ∧ ∃ r, store this2 !! id = Some r
               ∧ Forall (λ c, c.2 > resetTime r) clock)).

(** The value of a call has the return type its method declares. *)
Definition declared_type (c : Call) (v : Value) : Prop :=
  match c, v with
  | CallIsRateLimited _ _ _, VBoolean _ => True
  | CallGetCount _, VNumber _ => True
  | CallReset _, VUndefined => True
  | CallClear, VUndefined => True
  | CallCleanup _, VUndefined => True
  | _, _ => False
  end.

(** ** Concrete instances

    The limiter of the test-suite, [new RateLimiter(1000, 3)], and the
    states it reaches for the identifier ["test-ip"] when every call reads
    the clock at 0. *)

Definition test_limiter : RateLimiter := constructor (Some 1000) (Some 3).

Definition exhausted_record : RateLimitRecord :=
  {| count := 3; resetTime := 1000 |}.

Definition exhausted_limiter : RateLimiter :=
  with_store {[ "test-ip" := exhausted_record ]} test_limiter.

(** A limiter constructed with a negative window,
    [new RateLimiter(-1, 3)], and its state after one call for
    ["test-ip"] with the clock at 1000. *)
Definition misconfigured_limiter : RateLimiter := constructor (Some (-1)) (Some 3).

Definition born_stale_record : RateLimitRecord :=
  {| count := 1; resetTime := 999 |}.

(** ** The sibling class of [src/utils/security.ts]

    [security.ts] has a [RateLimiter] of its own: the store is its only
    field, [isRateLimited] takes the window and the quota as defaulted
    arguments of each call and does not sweep, and [cleanup] is a public
    method.  Its [identifier] lookup is guarded like the one above, so the
    methods are written as total functions on the store. *)
Module Security.

(** [isRateLimited(identifier, windowMs = 60000, maxRequests = 100)] *)
Definition isRateLimited (now : Z) (identifier : string) (w m : option Z)
    (st : gmap string RateLimitRecord)
  : bool * gmap string RateLimitRecord :=
  let windowMs := default 60000 w in
  let maxRequests := default 100 m in
  match st !! identifier with
  | None =>
      (false, <[identifier := {| count := 1; resetTime := now + windowMs |}]> st)
  | Some record =>
      if decide (now > resetTime record) then
        (false, <[identifier := {| count := 1; resetTime := now + windowMs |}]> st)
      else if decide (count record >= maxRequests) then (true, st)
      else
        (false,
         <[identifier := {| count := count record + 1;
                            resetTime := resetTime record |}]> st)
  end.

(** [cleanup()] *)
Definition cleanup (now : Z) (st : gmap string RateLimitRecord)
  : gmap string RateLimitRecord :=
  foldl (λ acc kr, if decide (now > resetTime kr.2) then delete kr.1 acc else acc)
        st (map_to_list st).

End Security.

From Stdlib Require Import Ascii.

(** ** The middleware of [src/utils/middleware.ts]

    Header values are byte strings ([Headers.get] returns a ByteString),
    so a [string] of 8-bit characters holds them exactly.  A [Headers]
    object compares names without case; the request map below is keyed by
    the lower-case names the source asks for, and the response map by the
    names as the source writes them, no two of which differ by case only.
    The module-level singleton [rateLimiter] is the instance the methods
    run on. *)

(** The white space of [String.prototype.trim] among the code points below
    256: TAB, LF, VT, FF, CR, SPACE and NBSP. *)
Definition is_whitespace (c : Ascii.ascii) : bool :=
  existsb (N.eqb (Ascii.N_of_ascii c)) [9; 10; 11; 12; 13; 32; 160]%N.

Fixpoint trimStart (s : string) : string :=
  match s with
  | EmptyString => EmptyString
  | String c s' => if is_whitespace c then trimStart s' else s
  end.

Fixpoint trimEnd (s : string) : string :=
  match s with
  | EmptyString => EmptyString
  | String c s' =>
      match trimEnd s' with
      | EmptyString => if is_whitespace c then EmptyString else String c EmptyString
      | t => String c t
      end
  end.

(** [s.trim()] *)
Definition trim (s : string) : string := trimEnd (trimStart s).

(** [s.split(sep)] for a separator of one character; the result is never
    empty. *)
Fixpoint split (sep : Ascii.ascii) (s : string) : list string :=
  match s with
  | EmptyString => [EmptyString]
  | String c s' =>
      if Ascii.eqb c sep then EmptyString :: split sep s'
      else match split sep s' with
           | x :: xs => String c x :: xs
           | [] => [String c EmptyString]
           end
  end.

(** Truthiness of a value that is a string or [null]: only a non-empty
    string is truthy. *)
Definition truthy_string (o : option string) : bool :=
  match o with
  | Some EmptyString => false
  | Some _ => true
  | None => false
  end.

Record NextRequest : Type := mkRequest {
  pathname : string;
  headers : gmap string string
}.

(** The object handed to [JSON.stringify] for the body of a reply. *)
Record ReplyBody : Type := mkBody {
  success : bool;
  message : string;
  error : string
}.

(** [NextResponse.next()], or [new NextResponse(body, init)]. *)
Inductive ResponseKind : Type :=
| Next
| Reply (status : Z) (body : ReplyBody).

Record NextResponse : Type := mkResponse {
  kind : ResponseKind;
  response_headers : gmap string string
}.

(** [response.headers.set(name, value)] *)
Definition headers_set (name value : string) (r : NextResponse) : NextResponse :=
  {| kind := kind r; response_headers := <[name := value]> (response_headers r) |}.

(** [xs[0].trim()], where [xs[0]] may be [undefined]. *)
Definition first_trimmed (xs : list string) : Method string :=
  match xs !! 0%nat with
  | Some x => mret (trim x)
  | None => throw TypeError
  end.

(** The [ip] computed by [middleware]. *)
Definition client_ip (request : NextRequest) : Method string :=
  let forwardedFor := headers request !! "x-forwarded-for" in
  if truthy_string forwardedFor then
    match forwardedFor with
    | Some v => first_trimmed (split ","%char v)
    | None => throw TypeError
    end
  else
    let realIp := headers request !! "x-real-ip" in
    if truthy_string realIp then mret (default "unknown" realIp)
    else mret "unknown".

(** [NextResponse.next()] with the five headers [middleware] sets on it. *)
Definition secured_next : NextResponse :=
  headers_set "Content-Security-Policy"
    "default-src 'self'; script-src 'self' 'unsafe-eval' 'unsafe-inline'; style-src 'self' 'unsafe-inline'; img-src 'self' data: https:; font-src 'self' https:; connect-src 'self' https:;"
  (headers_set "Permissions-Policy" "camera=(), microphone=(), geolocation=()"
  (headers_set "Referrer-Policy" "strict-origin-when-cross-origin"
  (headers_set "X-Content-Type-Options" "nosniff"
  (headers_set "X-Frame-Options" "DENY"
     {| kind := Next; response_headers := ∅ |})))).

(** The reply to a rate-limited request. *)
Definition too_many_requests : NextResponse :=
  {| kind := Reply 429
       {| success := false;
          message := "Too many requests. Please try again later.";
          error := "RATE_LIMIT_EXCEEDED" |};
     response_headers :=
       <["Retry-After" := "60"]> (<["Content-Type" := "application/json"]> ∅) |}.

(** [middleware(request)], run on the singleton limiter; [t_sweep] and
    [now] are the clock readings of the [isRateLimited] call, if one is
    made. *)
Definition middleware (t_sweep now : Z) (request : NextRequest)
  : Method NextResponse :=
  let response := secured_next in
  if String.prefix "/api/" (pathname request) then
    ip ← client_ip request;
    limited ← isRateLimited t_sweep now ip;
    if limited : bool then mret too_many_requests else mret response
  else mret response.

(** [export const rateLimiter = new RateLimiter()] *)
Definition rateLimiter : RateLimiter := constructor None None.

(** A run of [middleware] over a sequence of requests, each with the clock
    readings its [isRateLimited] call would make. *)
Fixpoint serve (traffic : list (Z * Z * NextRequest))
  : Method (list NextResponse) :=
  match traffic with
  | [] => mret []
  | (t_sweep, now, request) :: traffic' =>
      r ← middleware t_sweep now request;
      rs ← serve traffic';
      mret (r :: rs)
  end.

(** Whether [c] occurs in [s]. *)
Fixpoint has_char (c : Ascii.ascii) (s : string) : bool :=
  match s with
  | EmptyString => false
  | String d s' => Ascii.eqb d c || has_char c s'
  end.

Definition first_is_whitespace (s : string) : bool :=
  match s with
  | EmptyString => false
  | String c _ => is_whitespace c
  end.

Fixpoint last_is_whitespace (s : string) : bool :=
  match s with
  | EmptyString => false
  | String c s' =>
      match s' with
      | EmptyString => is_whitespace c
      | String _ _ => last_is_whitespace s'
      end
  end.

(** The decision readings of [clock] never go back: each is at most every
    later one. *)
Fixpoint never_goes_back (clock : list (Z * Z)) : Prop :=
  match clock with
  | [] => True
  | c :: clock' => Forall (λ c', c.2 <= c'.2) clock' ∧ never_goes_back clock'
  end.

(** The answers of [n] calls made inside one window that still has
    [quota] admissions left: admitted while the quota lasts, denied
    afterwards. *)
Definition in_window_answers (quota n : nat) : list bool :=
  replicate (n `min` quota) false ++ replicate (n - quota) true.

(** What [middleware] returns for an API request, given the limiter's
    answer. *)
Definition response_to (limited : bool) : NextResponse :=
  if limited then too_many_requests else secured_next.

(** ** A fractional quota

    [maxRequests] is a [number] and nothing in the class makes it
    integral: [record.count >= this.maxRequests] compares a count, which
    is integral, with any number.  [Fractional] is the class of
    rate-limiter.ts again with the quota a rational number; the
    configuration is passed as arguments and the methods are total
    functions on the store, as in [Security]. *)
Module Fractional.

(** [cleanup()] *)
Definition cleanup (now : Z) (st : gmap string RateLimitRecord)
  : gmap string RateLimitRecord :=
  foldl (λ acc kr, if decide (now > resetTime kr.2) then delete kr.1 acc else acc)
        st (map_to_list st).

(** [isRateLimited(identifier)] of an instance with the given [windowMs]
    and [maxRequests]. *)
Definition isRateLimited (windowMs : Z) (maxRequests : QArith_base.Q)
    (t_sweep now : Z) (identifier : string) (st : gmap string RateLimitRecord)
  : bool * gmap string RateLimitRecord :=
  let st := cleanup t_sweep st in
  match st !! identifier with
  | None =>
      (false, <[identifier := {| count := 1; resetTime := now + windowMs |}]> st)
  | Some record =>
      if decide (now > resetTime record) then
        (false, <[identifier := {| count := 1; resetTime := now + windowMs |}]> st)
      else if QArith_base.Qle_bool maxRequests (QArith_base.inject_Z (count record))
      then (true, st)
      else
        (false,
         <[identifier := {| count := count record + 1;
                            resetTime := resetTime record |}]> st)
  end.

(** A sequence of [isRateLimited(identifier)] calls, one per pair of clock
    readings. *)
Fixpoint requests (windowMs : Z) (maxRequests : QArith_base.Q)
    (identifier : string) (clock : list (Z * Z))
    (st : gmap string RateLimitRecord)
  : list bool * gmap string RateLimitRecord :=
  match clock with
  | [] => ([], st)
  | (t_sweep, now) :: clock' =>
      let answer := isRateLimited windowMs maxRequests t_sweep now identifier st in
      let rest := requests windowMs maxRequests identifier clock' answer.2 in
      (answer.1 :: rest.1, rest.2)
  end.

End Fractional.

(** The quota 2.5, as in [new RateLimiter(1000, 2.5)]. *)
Definition two_and_a_half : QArith_base.Q := QArith_base.Qmake 5 2.

(** ** The sweep *)

Lemma with_store_store this : with_store (store this) this = this.
Proof. by destruct this. Qed.

Lemma for_of_sweep t l this :
  for_of l (λ '(key, record),
    if decide (t > resetTime record) then store_delete key else mret ()) this
  = Normal ((), with_store (sweep_entries t l (store this)) this).
Proof.
  revert this. induction l as [|[k r] l IH]; intros this; simpl.
  - by rewrite with_store_store.
  - unfold mbind, method_bind. destruct (decide (t > resetTime r)); simpl.
    + by rewrite IH.
    + unfold mret, method_ret. by rewrite IH.
Qed.

Lemma sweep_entries_None t l st i :
  st !! i = None → sweep_entries t l st !! i = None.
Proof.
  revert st. induction l as [|[k r] l IH]; intros st Hi; simpl; [done|].
  apply IH. destruct (decide (t > resetTime r)); simpl; [|done].
  rewrite lookup_delete_None. by right.
Qed.

Lemma sweep_entries_stale t l st i r :
  (i, r) ∈ l → t > resetTime r → sweep_entries t l st !! i = None.
Proof.
  revert st. induction l as [|[k r'] l IH]; intros st Hin Hgt.
  - by apply elem_of_nil in Hin.
  - apply elem_of_cons in Hin as [[= <- <-]|Hin]; simpl.
    + rewrite decide_True by done. apply sweep_entries_None, lookup_delete_eq.
    + by apply IH.
Qed.

Lemma sweep_entries_live t l st i :
  (∀ r, (i, r) ∈ l → ¬ t > resetTime r) →
  sweep_entries t l st !! i = st !! i.
Proof.
  revert st. induction l as [|[k r'] l IH]; intros st Hl; simpl; [done|].
  rewrite IH by (intros r Hr; apply Hl; by right).
  destruct (decide (t > resetTime r')) as [Hgt|]; simpl; [|done].
  apply lookup_delete_ne. intros ->. by apply (Hl r'); [left|].
Qed.

Lemma lookup_swept t st i :
  swept t st !! i =
  match st !! i with
  | Some r => if decide (t > resetTime r) then None else Some r
  | None => None
  end.
Proof.
  unfold swept. rewrite map_lookup_filter.
  destruct (st !! i) as [r|]; simpl; [|done].
  destruct (decide (t > resetTime r)); by simplify_option_eq.
Qed.

Lemma sweep_entries_swept t st :
  sweep_entries t (map_to_list st) st = swept t st.
Proof.
  apply map_eq; intros i. rewrite lookup_swept.
  destruct (st !! i) as [r|] eqn:Hi.
  - destruct (decide (t > resetTime r)) as [Hgt|Hle].
    + eapply sweep_entries_stale; [|done]. by apply elem_of_map_to_list.
    + rewrite sweep_entries_live; [done|].
      intros r' Hr'. apply elem_of_map_to_list in Hr'. naive_solver.
  - by apply sweep_entries_None.
Qed.

(** [cleanup] ends normally and leaves exactly the records whose
    [resetTime] the clock has not passed. *)
Lemma cleanup_run t this :
  cleanup t this = Normal ((), with_store (swept t (store this)) this).
Proof.
  unfold cleanup, mbind, method_bind, store_entries.
  by rewrite for_of_sweep, sweep_entries_swept.
Qed.

(** ** One call of [isRateLimited] *)

Lemma isRateLimited_run t_sweep now id this :
  isRateLimited t_sweep now id this =
  isRateLimited_no_sweep now id (with_store (swept t_sweep (store this)) this).
Proof.
  unfold isRateLimited, isRateLimited_no_sweep.
  unfold mbind at 1. unfold method_bind at 1. rewrite cleanup_run.
  set (this' := with_store _ this).
  unfold mbind, method_bind, store_get.
  destruct (store this' !! id) as [r|]; simpl; [|done].
  unfold mret, method_ret.
  case_bool_decide; destruct (decide (now > resetTime r)); try done.
  simpl. by destruct (decide (count r >= maxRequests this)).
Qed.

Lemma lookup_swept_live t st i r :
  st !! i = Some r → live t r → swept t st !! i = Some r.
Proof.
  unfold live. intros Hi Hl. rewrite lookup_swept, Hi.
  rewrite decide_False; [done|lia].
Qed.

Lemma lookup_swept_Some t st i r :
  swept t st !! i = Some r → st !! i = Some r ∧ live t r.
Proof.
  rewrite lookup_swept. unfold live. destruct (st !! i) as [r'|]; [|done].
  destruct (decide (t > resetTime r')); [done|]. intros [= ->]. split; [done|lia].
Qed.

(** No record, or one the clock has passed: a window opens. *)
Lemma isRateLimited_opens t_sweep now id this :
  (∀ r, store this !! id = Some r → live t_sweep r → live now r → False) →
  isRateLimited t_sweep now id this =
  Normal (false,
          with_store (<[id := fresh now this]> (swept t_sweep (store this))) this).
Proof.
  intros Hstale. rewrite isRateLimited_run. unfold isRateLimited_no_sweep; simpl.
  destruct (swept t_sweep (store this) !! id) as [r|] eqn:Hr; [|done].
  apply lookup_swept_Some in Hr as [Hr Hl].
  destruct (decide (now > resetTime r)); [done|].
  destruct (Hstale r); [done..|]. unfold live. lia.
Qed.

(** A live record that has used up its quota: the call is denied. *)
Lemma isRateLimited_denies t_sweep now id this r :
  store this !! id = Some r → live t_sweep r → live now r →
  count r >= maxRequests this →
  isRateLimited t_sweep now id this =
  Normal (true, with_store (swept t_sweep (store this)) this).
Proof.
  intros Hr Hs Hn Hc. rewrite isRateLimited_run. unfold isRateLimited_no_sweep; simpl.
  rewrite (lookup_swept_live _ _ _ _ Hr Hs). unfold live in Hn.
  rewrite decide_False by lia. by rewrite decide_True.
Qed.

(** A live record with quota left: the call is admitted and counted. *)
Lemma isRateLimited_admits t_sweep now id this r :
  store this !! id = Some r → live t_sweep r → live now r →
  count r < maxRequests this →
  isRateLimited t_sweep now id this =
  Normal (false,
          with_store (<[id := bumped r]> (swept t_sweep (store this))) this).
Proof.
  intros Hr Hs Hn Hc. rewrite isRateLimited_run. unfold isRateLimited_no_sweep; simpl.
  rewrite (lookup_swept_live _ _ _ _ Hr Hs). unfold live in Hn.
  rewrite decide_False by lia. rewrite decide_False by lia. done.
Qed.

Lemma test_limiter_exhausted :
  requests "test-ip" [(0, 0); (0, 0); (0, 0); (0, 0)] test_limiter
  = Normal ([false; false; false; true], exhausted_limiter).
Proof. vm_compute. reflexivity. Qed.

Lemma getCount_run id this :
  getCount id this =
  Normal (match store this !! id with Some r => count r | None => 0 end, this).
Proof.
  unfold getCount, mbind, method_bind, store_get.
  by destruct (store this !! id).
Qed.

(** ** Window expiry *)

(** C2, as stated, fails at the boundary: on the exhausted test limiter
    (window opened at time 0, [resetTime = 0 + 1000]) a call whose clock
    reads exactly 1000 has reached [resetTime], yet it is denied and no
    fresh record is written. *)
Lemma window_reset_boundary_counterexample :
  store exhausted_limiter !! "test-ip" = Some exhausted_record
  ∧ resetTime exhausted_record = 0 + windowMs exhausted_limiter
  ∧ 1000 >= resetTime exhausted_record
  ∧ isRateLimited 1000 1000 "test-ip" exhausted_limiter
    = Normal (true, exhausted_limiter).
Proof. repeat split; vm_compute; congruence. Qed.

(** C2 (amended): once the clock reading of the call strictly exceeds the
    record's [resetTime], [isRateLimited] returns [false] whatever the
    count was, and the identifier is left with the fresh record
    [{count: 1, resetTime: now + windowMs}]. *)
Theorem window_reset_after_resetTime this id r t_sweep now :
  store this !! id = Some r →
  now > resetTime r →
  ∃ this',
    isRateLimited t_sweep now id this = Normal (false, this')
    ∧ store this' !! id = Some {| count := 1; resetTime := now + windowMs this |}.
Proof.
  intros Hr Hgt. eexists. split.
  - apply isRateLimited_opens. intros r' Hr' _ Hl.
    unfold live in Hl. simplify_eq. lia.
  - simpl. apply lookup_insert_eq.
Qed.

Lemma window_reset_after_resetTime_witness :
  ∃ this',
    isRateLimited 1100 1100 "test-ip" exhausted_limiter = Normal (false, this')
    ∧ store this' !! "test-ip"
      = Some {| count := 1; resetTime := 1100 + windowMs exhausted_limiter |}.
Proof.
  apply (window_reset_after_resetTime exhausted_limiter "test-ip"
           exhausted_record 1100 1100).
  - vm_compute. reflexivity.
  - vm_compute. reflexivity.
Defined.

(** ** Denied calls *)

(** C3: on a live record with [count >= maxRequests], [isRateLimited]
    returns [true] and the identifier keeps the very same record, count
    and resetTime included. *)
Theorem denied_call_keeps_record this id r t_sweep now :
  store this !! id = Some r →
  live t_sweep r → live now r →
  count r >= maxRequests this →
  ∃ this',
    isRateLimited t_sweep now id this = Normal (true, this')
    ∧ store this' !! id = Some r.
Proof.
  intros Hr Hs Hn Hc. eexists. split.
  - by eapply isRateLimited_denies.
  - simpl. by apply lookup_swept_live.
Qed.

Lemma denied_call_keeps_record_witness :
  ∃ this',
    isRateLimited 500 1000 "test-ip" exhausted_limiter = Normal (true, this')
    ∧ store this' !! "test-ip" = Some exhausted_record.
Proof.
  apply (denied_call_keeps_record exhausted_limiter "test-ip"
           exhausted_record 500 1000).
  - vm_compute. reflexivity.
  - unfold live. simpl. lia.
  - unfold live. simpl. lia.
  - simpl. lia.
Defined.

(** ** getCount *)

(** C4, as stated, fails on a stale record: at time 2000 the record of
    the exhausted test limiter is stale ([resetTime = 1000]), and
    [getCount] still answers its stored count 3. *)
Lemma getCount_stale_counterexample :
  store exhausted_limiter !! "test-ip" = Some exhausted_record
  ∧ 2000 > resetTime exhausted_record
  ∧ getCount "test-ip" exhausted_limiter = Normal (3, exhausted_limiter).
Proof. repeat split; vm_compute; congruence. Qed.

(** C4 (amended): [getCount] never changes the limiter, answers 0 for an
    identifier without a record and the stored count for an identifier
    with one, whether that record is live or stale. *)
Theorem getCount_reads_stored_count this id :
  ∃ n,
    getCount id this = Normal (n, this)
    ∧ n = match store this !! id with Some r => count r | None => 0 end.
Proof. eexists. split; [apply getCount_run|done]. Qed.

(** ** reset and clear *)

(** C7: [reset(id)] deletes the record of [id] and nothing else (so it
    changes nothing when [id] has no record); afterwards [getCount(id)]
    is 0 and the next [isRateLimited(id)] returns [false].  [clear()]
    empties the store, and afterwards [getCount] is 0 for every
    identifier. *)
Theorem reset_and_clear_forget this id :
  (∃ this',
     reset id this = Normal ((), this')
     ∧ this' = with_store (delete id (store this)) this
     ∧ (is_Some (store this !! id) ∨ this' = this)
     ∧ getCount id this' = Normal (0, this')
     ∧ ∀ t_sweep now, returned (isRateLimited t_sweep now id this') = Some false)
  ∧ (∃ this',
       clear this = Normal ((), this')
       ∧ store this' = ∅
       ∧ ∀ id', getCount id' this' = Normal (0, this')).
Proof.
  split; eexists; (split; [reflexivity|]).
  - split; [done|]. split; [|split].
    + destruct (store this !! id) eqn:Hi; [by left; eexists|right].
      rewrite delete_id by done. apply with_store_store.
    + rewrite getCount_run. simpl. by rewrite lookup_delete_eq.
    + intros t_sweep now. rewrite isRateLimited_opens; [done|].
      simpl. intros r. by rewrite lookup_delete_eq.
  - split; [done|]. intros id'. rewrite getCount_run. simpl.
    by rewrite lookup_empty.
Qed.

(** ** Quota within one window *)

Lemma requests_cons id c clock this b this' :
  isRateLimited c.1 c.2 id this = Normal (b, this') →
  requests id (c :: clock) this =
  match requests id clock this' with
  | Normal (bs, this'') => Normal (b :: bs, this'')
  | Thrown e => Thrown e
  end.
Proof.
  destruct c as [t now]; simpl. intros Hrun.
  unfold mbind at 1. unfold method_bind at 1. rewrite Hrun.
  unfold mbind, method_bind. by destruct (requests id clock this') as [[bs ?]|].
Qed.

(** While the window of [r] lasts, [id] is admitted until its count
    reaches [maxRequests], and denied on the call after that. *)
Lemma requests_within_window id clock :
  ∀ this r,
    store this !! id = Some r →
    Forall (λ c, live c.1 r ∧ live c.2 r) clock →
    length clock = S (Z.to_nat (maxRequests this - count r)) →
    ∃ this',
      requests id clock this =
      Normal (replicate (Z.to_nat (maxRequests this - count r)) false ++ [true],
              this').
Proof.
  induction clock as [|c clock IH]; intros this r Hr Hlive Hlen; [done|].
  apply Forall_cons in Hlive as [[Hs Hn] Hlive].
  destruct (decide (count r >= maxRequests this)) as [Hfull|Hroom].
  - replace (Z.to_nat (maxRequests this - count r)) with 0%nat in * by lia.
    destruct clock; [|done]. eexists.
    erewrite requests_cons by (by eapply isRateLimited_denies). done.
  - destruct (Z.to_nat (maxRequests this - count r)) as [|n] eqn:Hn'; [lia|].
    set (this1 := with_store (<[id := bumped r]> (swept c.1 (store this))) this).
    destruct (IH this1 (bumped r)) as [this' Hrest].
    + apply lookup_insert_eq.
    + done.
    + simpl in *. lia.
    + exists this'.
      erewrite requests_cons by (eapply isRateLimited_admits; [done..|lia]).
      fold this1. rewrite Hrest. simpl.
      by replace (Z.to_nat (maxRequests this - (count r + 1))) with n by lia.
Qed.

(** C1: for a limiter with [maxRequests >= 1] and an identifier without a
    record, when every later call reads the clock no later than the
    [resetTime] set by the first call, the first [maxRequests] calls of
    [isRateLimited] return [false] and the next one returns [true]. *)
Theorem quota_then_denial this id t0 now0 later :
  maxRequests this >= 1 →
  store this !! id = None →
  length later = Z.to_nat (maxRequests this) →
  Forall (λ c, c.1 <= now0 + windowMs this ∧ c.2 <= now0 + windowMs this) later →
  ∃ this',
    requests id ((t0, now0) :: later) this =
    Normal (replicate (Z.to_nat (maxRequests this)) false ++ [true], this').
Proof.
  intros Hmax Habsent Hlen Hwin.
  set (this1 := with_store (<[id := fresh now0 this]> (swept t0 (store this))) this).
  destruct (requests_within_window id later this1 (fresh now0 this))
    as [this' Hrest].
  - apply lookup_insert_eq.
  - done.
  - simpl. lia.
  - exists this'.
    erewrite (requests_cons id (t0, now0)); cycle 1.
    { apply isRateLimited_opens. intros r. by rewrite Habsent. }
    cbn [fst snd]. fold this1. rewrite Hrest. simpl.
    replace (Z.to_nat (maxRequests this)) with (S (Z.to_nat (maxRequests this - 1)))
      by lia.
    done.
Qed.

Lemma quota_then_denial_witness :
  ∃ this',
    requests "test-ip" [(0, 0); (10, 10); (999, 1000); (1000, 1000)] test_limiter
    = Normal ([false; false; false; true], this').
Proof.
  apply (quota_then_denial test_limiter "test-ip" 0 0
           [(10, 10); (999, 1000); (1000, 1000)]).
  - simpl. lia.
  - vm_compute. reflexivity.
  - vm_compute. reflexivity.
  - repeat constructor; simpl; lia.
Defined.

(** The default construction admits 100 calls and denies the 101st. *)
Example default_limiter_quota :
  returned (requests "test-ip" (replicate 101 (0, 0)) (constructor None None))
  = Some (replicate 100 false ++ [true]).
Proof. vm_compute. reflexivity. Qed.

(** ** One call, seen through lookups *)

Lemma isRateLimited_lookup t_sweep now id this :
  let o := swept t_sweep (store this) !! id in
  ∃ this',
    isRateLimited t_sweep now id this = Normal ((verdict now this o).1, this')
    ∧ store this' !! id = Some (verdict now this o).2
    ∧ (∀ j, j ≠ id → store this' !! j = swept t_sweep (store this) !! j)
    ∧ same_config this' this.
Proof.
  intros o. rewrite isRateLimited_run.
  unfold isRateLimited_no_sweep, verdict; simpl. fold o.
  destruct o as [r|] eqn:Ho; [destruct (decide (now > resetTime r));
    [|destruct (decide (count r >= maxRequests this))]|];
    eexists; (split; [reflexivity|]); simpl;
    rewrite ?lookup_insert_eq; (split; [done|]);
    (split; [|done]); intros j Hj; by rewrite ?lookup_insert_ne.
Qed.

Lemma isRateLimited_total t_sweep now id this :
  ∃ b this', isRateLimited t_sweep now id this = Normal (b, this').
Proof.
  destruct (isRateLimited_lookup t_sweep now id this) as (this' & H & _).
  eauto.
Qed.

Lemma requests_total id clock this :
  ∃ bs this', requests id clock this = Normal (bs, this').
Proof.
  revert this. induction clock as [|c clock IH]; intros this; [by eexists _, _|].
  destruct (isRateLimited_total c.1 c.2 id this) as (b & this1 & H1).
  destruct (IH this1) as (bs & this' & Hrest).
  exists (b :: bs), this'. erewrite requests_cons by done. by rewrite Hrest.
Qed.

(** ** Every call ends normally *)

Lemma call_total c this :
  ∃ v this', call c this = Normal (v, this') ∧ declared_type c v.
Proof.
  destruct c as [t now id|id|id| |t]; simpl; unfold mbind, method_bind.
  - destruct (isRateLimited_total t now id this) as (b & this' & ->).
    by eexists _, _.
  - rewrite getCount_run. by eexists _, _.
  - by eexists _, _.
  - by eexists _, _.
  - rewrite cleanup_run. by eexists _, _.
Qed.

Lemma calls_cons c cs this v this' :
  call c this = Normal (v, this') →
  calls (c :: cs) this =
  match calls cs this' with
  | Normal (vs, this'') => Normal (v :: vs, this'')
  | Thrown e => Thrown e
  end.
Proof.
  intros Hrun. simpl. unfold mbind at 1. unfold method_bind at 1. rewrite Hrun.
  unfold mbind, method_bind. by destruct (calls cs this') as [[vs ?]|].
Qed.

Lemma calls_total cs this :
  ∃ vs this', calls cs this = Normal (vs, this') ∧ Forall2 declared_type cs vs.
Proof.
  revert this. induction cs as [|c cs IH]; intros this.
  - eexists _, _. split; [reflexivity|constructor].
  - destruct (call_total c this) as (v & this1 & H1 & Hty).
    destruct (IH this1) as (vs & this' & Hrest & Htys).
    exists (v :: vs), this'. erewrite calls_cons by done. rewrite Hrest.
    split; [done|by constructor].
Qed.

(** C9: whatever the configuration handed to the constructor (omitted,
    zero or negative values included), every sequence of calls of
    [isRateLimited], [getCount], [reset], [clear] and [cleanup], on any
    identifiers, ends normally, no call throws, and each call returns a
    value of the type its method declares. *)
Theorem operations_never_throw (w m : option Z) (cs : list Call) :
  ∃ vs this',
    calls cs (constructor w m) = Normal (vs, this')
    ∧ Forall2 declared_type cs vs.
Proof. apply calls_total. Qed.

(** ** The count invariant *)

Lemma swept_bounded t this :
  counts_bounded this → counts_bounded (with_store (swept t (store this)) this).
Proof.
  intros Hb id r Hr. simpl in *. apply lookup_swept_Some in Hr as [Hr _]. eauto.
Qed.

Lemma verdict_bounded now this o :
  1 <= maxRequests this →
  (∀ r, o = Some r → 1 <= count r <= maxRequests this) →
  1 <= count (verdict now this o).2 <= maxRequests this.
Proof.
  intros Hmax Ho. unfold verdict. destruct o as [r|]; simpl; [|lia].
  specialize (Ho r eq_refl).
  destruct (decide (now > resetTime r)); simpl; [lia|].
  destruct (decide (count r >= maxRequests this)); simpl; lia.
Qed.

Lemma isRateLimited_bounded t_sweep now id this b this' :
  1 <= maxRequests this →
  counts_bounded this →
  isRateLimited t_sweep now id this = Normal (b, this') →
  counts_bounded this'.
Proof.
  intros Hmax Hb Hrun.
  destruct (isRateLimited_lookup t_sweep now id this)
    as (this1 & Hrun1 & Hid & Hother & Hw & Hm).
  rewrite Hrun in Hrun1. injection Hrun1 as _ <-.
  intros j r Hr. rewrite Hm. destruct (decide (j = id)) as [->|Hne].
  - rewrite Hid in Hr. injection Hr as <-. apply verdict_bounded; [done|].
    intros r Hr. apply lookup_swept_Some in Hr as [Hr _]. eauto.
  - rewrite Hother in Hr by done. apply lookup_swept_Some in Hr as [Hr _]. eauto.
Qed.

Lemma call_same_config c this v this' :
  call c this = Normal (v, this') → same_config this' this.
Proof.
  destruct c as [t now id|id|id| |t]; simpl; unfold mbind, method_bind.
  - destruct (isRateLimited_lookup t now id this) as (this1 & -> & _ & _ & Hc).
    by intros [= _ <-].
  - rewrite getCount_run. by intros [= _ <-].
  - by intros [= _ <-].
  - by intros [= _ <-].
  - rewrite cleanup_run. by intros [= _ <-].
Qed.

Lemma call_bounded c this v this' :
  1 <= maxRequests this →
  counts_bounded this →
  call c this = Normal (v, this') →
  counts_bounded this'.
Proof.
  intros Hmax Hb.
  destruct c as [t now id|id|id| |t]; simpl; unfold mbind, method_bind.
  - destruct (isRateLimited t now id this) as [[b this1]|] eqn:Hrun; [|done].
    intros [= _ <-]. by eapply isRateLimited_bounded.
  - rewrite getCount_run. by intros [= _ <-].
  - intros [= _ <-] j r Hr. simpl in *.
    apply lookup_delete_Some in Hr as [_ Hr]. eauto.
  - intros [= _ <-] j r Hr. simpl in *. by rewrite lookup_empty in Hr.
  - rewrite cleanup_run. intros [= _ <-]. by apply swept_bounded.
Qed.

Lemma calls_bounded cs :
  ∀ this vs this',
    1 <= maxRequests this →
    counts_bounded this →
    calls cs this = Normal (vs, this') →
    counts_bounded this' ∧ same_config this' this.
Proof.
  induction cs as [|c cs IH]; intros this vs this' Hmax Hb Hrun.
  - injection Hrun as _ <-. done.
  - destruct (call_total c this) as (v & this1 & H1 & _).
    erewrite calls_cons in Hrun by done.
    destruct (calls cs this1) as [[vs1 this2]|] eqn:Hrest; [|done].
    injection Hrun as _ <-.
    pose proof (call_same_config _ _ _ _ H1) as [Hw Hm].
    destruct (IH this1 vs1 this2) as [Hb2 [Hw2 Hm2]]; [lia|by eapply call_bounded|done|].
    split; [done|]. split; congruence.
Qed.

(** With an integral quota the fractional class is the class modelled
    above: the integer model is its integral case. *)
Lemma fractional_integral t_sweep now id this :
  isRateLimited t_sweep now id this =
  Normal (let answer :=
            Fractional.isRateLimited (windowMs this)
              (QArith_base.inject_Z (maxRequests this)) t_sweep now id
              (store this) in
          (answer.1, with_store answer.2 this)).
Proof.
  rewrite isRateLimited_run.
  unfold Fractional.isRateLimited, Fractional.cleanup.
  fold (sweep_entries t_sweep (map_to_list (store this)) (store this)).
  rewrite sweep_entries_swept. unfold isRateLimited_no_sweep; simpl.
  destruct (swept t_sweep (store this) !! id) as [r|]; [|done].
  destruct (decide (now > resetTime r)); [done|].
  unfold QArith_base.Qle_bool; simpl. rewrite !Z.mul_1_r.
  destruct (decide (count r >= maxRequests this)),
           (Z.leb_spec (maxRequests this) (count r)); simpl; (done || lia).
Qed.

(** C5, as stated, fails for a fractional quota.  [new RateLimiter(1000,
    2.5)] is constructed with [maxRequests >= 1]; three calls for
    ["test-ip"] with the clock at 0 are all admitted, since neither
    [1 >= 2.5] nor [2 >= 2.5] holds, and they leave a record that is live
    at time 0 with count 3, above [maxRequests]. *)
Lemma fractional_quota_counterexample :
  QArith_base.Qle (QArith_base.inject_Z 1) two_and_a_half
  ∧ Fractional.requests 1000 two_and_a_half "test-ip" [(0, 0); (0, 0); (0, 0)] ∅
    = ([false; false; false], {[ "test-ip" := exhausted_record ]})
  ∧ live 0 exhausted_record
  ∧ ¬ QArith_base.Qle (QArith_base.inject_Z (count exhausted_record))
                      two_and_a_half.
Proof.
  split; [|split; [|split]].
  - unfold QArith_base.Qle. simpl. lia.
  - vm_compute. reflexivity.
  - unfold live. simpl. lia.
  - unfold QArith_base.Qle. simpl. lia.
Qed.

(** C5 (amended): in every state a limiter constructed with an integral
    [maxRequests >= 1] reaches through calls of [isRateLimited],
    [getCount], [reset], [clear] and [cleanup], every stored record has
    [1 <= count], and every record that is live at the current time has
    [count <= maxRequests].  The quota of the model is an integer. *)
Theorem counts_stay_within_quota (w m : option Z) cs vs this id r :
  default default_maxRequests m >= 1 →
  calls cs (constructor w m) = Normal (vs, this) →
  store this !! id = Some r →
  maxRequests this = default default_maxRequests m
  ∧ 1 <= count r
  ∧ ∀ now, live now r → count r <= maxRequests this.
Proof.
  intros Hmax Hrun Hr.
  destruct (calls_bounded cs (constructor w m) vs this) as [Hb [_ Hm]].
  - simpl. lia.
  - intros j r'. simpl. by rewrite lookup_empty.
  - done.
  - split; [done|]. specialize (Hb id r Hr). split; [lia|]. intros _ _. lia.
Qed.

Lemma counts_stay_within_quota_witness :
  maxRequests exhausted_limiter = 3
  ∧ 1 <= count exhausted_record
  ∧ ∀ now, live now exhausted_record →
           count exhausted_record <= maxRequests exhausted_limiter.
Proof.
  apply (counts_stay_within_quota (Some 1000) (Some 3)
           [CallIsRateLimited 0 0 "test-ip"; CallGetCount "test-ip";
            CallIsRateLimited 1 1 "other"; CallReset "other";
            CallIsRateLimited 2 2 "test-ip"; CallCleanup 3;
            CallIsRateLimited 4 4 "test-ip"; CallIsRateLimited 5 5 "test-ip"]
           [VBoolean false; VNumber 1; VBoolean false; VUndefined;
            VBoolean false; VUndefined; VBoolean false; VBoolean true]
           exhausted_limiter "test-ip" exhausted_record).
  - simpl. lia.
  - vm_compute. reflexivity.
  - vm_compute. reflexivity.
Defined.

(** ** The sweep and the decision *)

Lemma no_sweep_lookup now id this :
  ∃ this',
    isRateLimited_no_sweep now id this
    = Normal ((verdict now this (store this !! id)).1, this')
    ∧ store this' !! id = Some (verdict now this (store this !! id)).2.
Proof.
  unfold isRateLimited_no_sweep, verdict.
  destruct (store this !! id) as [r|] eqn:Hr; [destruct (decide (now > resetTime r));
    [|destruct (decide (count r >= maxRequests this))]|];
    eexists; (split; [reflexivity|]); simpl; by rewrite ?lookup_insert_eq.
Qed.

(** A sweep whose clock is not ahead of the decision's clock removes only
    records the decision would replace anyway. *)
Lemma verdict_swept t_sweep now this id :
  t_sweep <= now →
  verdict now this (swept t_sweep (store this) !! id)
  = verdict now this (store this !! id).
Proof.
  intros Hle. rewrite lookup_swept. destruct (store this !! id) as [r|]; [|done].
  destruct (decide (t_sweep > resetTime r)); [|done].
  simpl. rewrite decide_True by lia. done.
Qed.

(** C6: at any one clock reading, [isRateLimited] (which sweeps first)
    and the sweep-free procedure of the specification return the same
    boolean and leave the queried identifier with the same record, hence
    the same count. *)
Theorem sweep_preserves_decision this id now :
  ∃ b this1 this2,
    isRateLimited now now id this = Normal (b, this1)
    ∧ isRateLimited_no_sweep now id this = Normal (b, this2)
    ∧ store this1 !! id = store this2 !! id
    ∧ returned (getCount id this1) = returned (getCount id this2).
Proof.
  destruct (isRateLimited_lookup now now id this) as (this1 & H1 & Hid1 & _).
  destruct (no_sweep_lookup now id this) as (this2 & H2 & Hid2).
  rewrite verdict_swept in H1, Hid1 by lia.
  eexists _, this1, this2. split; [done|]. split; [done|].
  split; [congruence|]. rewrite !getCount_run. simpl. by rewrite Hid1, Hid2.
Qed.

(** ** Independence of identifiers *)

Lemma forgot_only_expired_refl id clock this :
  forgot_only_expired id clock this this.
Proof. split; [done|by left]. Qed.

Lemma forgot_only_expired_trans id clock this1 this2 this3 :
  forgot_only_expired id clock this1 this2 →
  forgot_only_expired id clock this2 this3 →
  forgot_only_expired id clock this1 this3.
Proof.
  intros [[Hw1 Hm1] H12] [[Hw2 Hm2] H23].
  split; [split; congruence|].
  destruct H12 as [H12|[H1 (r & Hr & Hst)]], H23 as [H23|[H2 (r' & Hr' & Hst')]].
  - left. congruence.
  - right. split; [congruence|]. eauto.
  - right. split; [done|]. exists r. split; [congruence|done].
  - congruence.
Qed.

(** A call for [a] touches the record of another identifier [b] only by
    sweeping it, and then every later call finds it expired. *)
Lemma isRateLimited_other a b t_sweep now clock this v this' :
  a ≠ b →
  Forall (λ c, t_sweep <= c.2) clock →
  isRateLimited t_sweep now a this = Normal (v, this') →
  forgot_only_expired b clock this' this.
Proof.
  intros Hne Hclock Hrun.
  destruct (isRateLimited_lookup t_sweep now a this)
    as (this1 & Hrun1 & _ & Hother & Hcfg).
  rewrite Hrun in Hrun1. injection Hrun1 as _ <-.
  split; [done|]. rewrite Hother by done. rewrite lookup_swept.
  destruct (store this !! b) as [r|]; [|by left].
  destruct (decide (t_sweep > resetTime r)); [right|by left].
  split; [done|]. exists r. split; [done|].
  eapply Forall_impl; [done|]. simpl. intros c Hc. lia.
Qed.

Lemma requests_other a b calls_a clock :
  a ≠ b →
  Forall (λ ca, Forall (λ cb, ca.1 <= cb.2) clock) calls_a →
  ∀ this vs this',
    requests a calls_a this = Normal (vs, this') →
    forgot_only_expired b clock this' this.
Proof.
  intros Hne. induction 1 as [|ca calls_a Hca _ IH]; intros this vs this' Hrun.
  - injection Hrun as _ <-. apply forgot_only_expired_refl.
  - destruct (isRateLimited_total ca.1 ca.2 a this) as (v & this1 & H1).
    erewrite requests_cons in Hrun by done.
    destruct (requests a calls_a this1) as [[vs1 this2]|] eqn:Hrest; [|done].
    injection Hrun as _ <-.
    eapply forgot_only_expired_trans; [by eapply IH|].
    by eapply isRateLimited_other.
Qed.

(** Calls for [a] leave alone a record of [b] that their sweeps find
    live. *)
Lemma requests_keeps_live a b calls_a :
  a ≠ b →
  ∀ this vs this' r,
    requests a calls_a this = Normal (vs, this') →
    store this !! b = Some r →
    Forall (λ ca, live ca.1 r) calls_a →
    store this' !! b = Some r.
Proof.
  intros Hne. induction calls_a as [|ca calls_a IH];
    intros this vs this' r Hrun Hr Hlive.
  - injection Hrun as _ <-. done.
  - apply Forall_cons in Hlive as [Hca Hlive].
    destruct (isRateLimited_lookup ca.1 ca.2 a this)
      as (this1 & H1 & _ & Hother & _).
    erewrite requests_cons in Hrun by done.
    destruct (requests a calls_a this1) as [[vs1 this2]|] eqn:Hrest; [|done].
    injection Hrun as _ <-.
    eapply (IH this1); [done| |done].
    rewrite Hother by done. by apply lookup_swept_live.
Qed.

Lemma verdict_same_config now this1 this2 o :
  same_config this1 this2 → verdict now this1 o = verdict now this2 o.
Proof. intros [Hw Hm]. unfold verdict, fresh. by rewrite Hw, Hm. Qed.

(** The answers to [b] are the same from two limiters that differ on [b]
    only by an expired record. *)
Lemma requests_forgot_only_expired b clock :
  ∀ this1 this2,
    forgot_only_expired b clock this1 this2 →
    returned (requests b clock this1) = returned (requests b clock this2).
Proof.
  induction clock as [|c clock IH]; intros this1 this2 [Hcfg Hrec]; [done|].
  destruct (isRateLimited_lookup c.1 c.2 b this1) as (this1' & H1 & Hid1 & _ & Hc1).
  destruct (isRateLimited_lookup c.1 c.2 b this2) as (this2' & H2 & Hid2 & _ & Hc2).
  assert (verdict c.2 this1 (swept c.1 (store this1) !! b)
          = verdict c.2 this2 (swept c.1 (store this2) !! b)) as Hv.
  { rewrite (verdict_same_config _ this1 this2) by done.
    rewrite !lookup_swept.
    destruct Hrec as [->|[-> (r & -> & Hst)]]; [done|].
    apply Forall_cons in Hst as [Hst _].
    destruct (decide (c.1 > resetTime r)); [done|].
    simpl. by rewrite decide_True. }
  rewrite Hv in H1, Hid1.
  erewrite !requests_cons by done.
  assert (forgot_only_expired b clock this1' this2') as Hnext.
  { split; [|left; congruence].
    destruct Hcfg, Hc1, Hc2. split; congruence. }
  specialize (IH _ _ Hnext).
  destruct (requests b clock this1') as [[bs1 ?]|],
           (requests b clock this2') as [[bs2 ?]|]; simpl in *; congruence.
Qed.

(** C8: let [a] and [b] be distinct identifiers and let the clock not run
    backwards from the calls for [a] to the later calls for [b].  Then
    the answers to the calls for [b] are what they would have been
    without the calls for [a]; and a record of [b] that is live at the
    sweep of every call for [a] is still there, unchanged, after them. *)
Theorem identifiers_are_independent a b calls_a calls_b this :
  a ≠ b →
  Forall (λ ca, Forall (λ cb, ca.1 <= cb.2) calls_b) calls_a →
  ∃ vs this',
    requests a calls_a this = Normal (vs, this')
    ∧ returned (requests b calls_b this') = returned (requests b calls_b this)
    ∧ ∀ r, store this !! b = Some r →
           Forall (λ ca, live ca.1 r) calls_a →
           store this' !! b = Some r.
Proof.
  intros Hne Hclock.
  destruct (requests_total a calls_a this) as (vs & this' & Hrun).
  exists vs, this'. split; [done|]. split.
  - apply requests_forgot_only_expired. by eapply requests_other.
  - intros r Hr Hlive. by eapply requests_keeps_live.
Qed.

Lemma identifiers_are_independent_witness :
  ∃ vs this',
    requests "192.168.1.1" [(0, 0); (1, 1); (2, 2); (3, 3)] exhausted_limiter
    = Normal (vs, this')
    ∧ returned (requests "test-ip" [(3, 4); (1001, 1001)] this')
      = returned (requests "test-ip" [(3, 4); (1001, 1001)] exhausted_limiter)
    ∧ ∀ r, store exhausted_limiter !! "test-ip" = Some r →
           Forall (λ ca, live ca.1 r) [(0, 0); (1, 1); (2, 2); (3, 3)] →
           store this' !! "test-ip" = Some r.
Proof.
  apply (identifiers_are_independent "192.168.1.1" "test-ip"
           [(0, 0); (1, 1); (2, 2); (3, 3)] [(3, 4); (1001, 1001)]
           exhausted_limiter).
  - discriminate.
  - repeat constructor; simpl; lia.
Defined.

(** Two addresses get three admissions each from
    [new RateLimiter(1000, 3)]. *)
Example two_addresses_three_each :
  ∃ this1 this2,
    requests "192.168.1.1" [(0, 0); (0, 0); (0, 0); (0, 0)] test_limiter
    = Normal ([false; false; false; true], this1)
    ∧ requests "192.168.1.2" [(0, 0); (0, 0); (0, 0); (0, 0)] this1
      = Normal ([false; false; false; true], this2).
Proof. eexists _, _. split; vm_compute; reflexivity. Qed.

(** ** After a call, nothing stale *)

(** C10, as stated, fails for a negative window: the limiter
    [new RateLimiter(-1, 3)], called with the clock at 1000, stores for
    ["test-ip"] a record whose [resetTime] is 999, below the time its own
    sweep observed. *)
Lemma stale_after_call_counterexample :
  isRateLimited 1000 1000 "test-ip" misconfigured_limiter
  = Normal (false,
            with_store {[ "test-ip" := born_stale_record ]} misconfigured_limiter)
  ∧ ¬ resetTime born_stale_record >= 1000.
Proof. split; vm_compute; congruence. Qed.

(** C10 (amended): for a limiter with [windowMs >= 0], and a clock that
    does not run backwards between the sweep and the decision, every
    record present when [isRateLimited] returns has a [resetTime] at or
    after the time observed by the sweep of that call. *)
Theorem no_stale_record_after_call this id t_sweep now :
  0 <= windowMs this →
  t_sweep <= now →
  ∃ b this',
    isRateLimited t_sweep now id this = Normal (b, this')
    ∧ ∀ j r, store this' !! j = Some r → resetTime r >= t_sweep.
Proof.
  intros Hw Hclock.
  destruct (isRateLimited_lookup t_sweep now id this)
    as (this' & Hrun & Hid & Hother & _).
  eexists _, this'. split; [done|]. intros j r Hr.
  destruct (decide (j = id)) as [->|Hne].
  - rewrite Hid in Hr. injection Hr as <-. unfold verdict.
    destruct (swept t_sweep (store this) !! id) as [r|] eqn:Hsw; simpl; [|lia].
    apply lookup_swept_Some in Hsw as [_ Hl]. unfold live in Hl.
    destruct (decide (now > resetTime r)); simpl; [lia|].
    destruct (decide (count r >= maxRequests this)); simpl; lia.
  - rewrite Hother in Hr by done.
    apply lookup_swept_Some in Hr as [_ Hl]. unfold live in Hl. lia.
Qed.

Lemma no_stale_record_after_call_witness :
  ∃ b this',
    isRateLimited 500 600 "192.168.1.1" exhausted_limiter = Normal (b, this')
    ∧ ∀ j r, store this' !! j = Some r → resetTime r >= 500.
Proof.
  apply (no_stale_record_after_call exhausted_limiter "192.168.1.1" 500 600).
  - simpl. lia.
  - lia.
Defined.

(** * Further properties of the class *)

(** ** The sweep, from outside *)

(** X1: [cleanup] ends normally, leaves the configuration alone, and keeps
    exactly the records whose [resetTime] the clock has not passed, each
    with its value unchanged. *)
Theorem cleanup_keeps_exactly_live t this :
  ∃ this',
    cleanup t this = Normal ((), this')
    ∧ same_config this' this
    ∧ ∀ id, store this' !! id =
            match store this !! id with
            | Some r => if decide (t > resetTime r) then None else Some r
            | None => None
            end.
Proof.
  eexists. split; [apply cleanup_run|]. split; [done|].
  intros id. simpl. apply lookup_swept.
Qed.

Lemma swept_swept t1 t2 st : swept t2 (swept t1 st) = swept (t1 `max` t2) st.
Proof.
  apply map_eq; intros i. rewrite !lookup_swept.
  destruct (st !! i) as [r|]; [|done].
  destruct (decide (t1 > resetTime r)).
  - rewrite decide_True by lia. done.
  - destruct (decide (t2 > resetTime r)).
    + rewrite decide_True by lia. done.
    + rewrite decide_False by lia. done.
Qed.

(** X2: two sweeps in a row amount to one sweep at the later of the two
    clock readings; in particular a second sweep at the same or an earlier
    time changes nothing. *)
Theorem cleanup_twice t1 t2 this :
  (cleanup t1 ;; cleanup t2) this = cleanup (t1 `max` t2) this.
Proof.
  unfold mbind, method_bind. rewrite !cleanup_run. simpl.
  by rewrite swept_swept.
Qed.

(** ** Admission and denial *)

(** X3: an admitted call inside a live window counts exactly once: the
    call returns [false], [getCount] goes up by one, and the end of the
    window does not move. *)
Theorem admitted_call_counts_once this id r t_sweep now :
  store this !! id = Some r →
  live t_sweep r → live now r →
  count r < maxRequests this →
  ∃ this',
    isRateLimited t_sweep now id this = Normal (false, this')
    ∧ store this' !! id = Some {| count := count r + 1; resetTime := resetTime r |}
    ∧ returned (getCount id this') = Some (count r + 1).
Proof.
  intros Hr Hs Hn Hc. eexists. split; [by eapply isRateLimited_admits|].
  rewrite getCount_run. simpl. by rewrite lookup_insert_eq.
Qed.

Lemma admitted_call_counts_once_witness :
  ∃ this',
    isRateLimited 5 7 "test-ip"
      (with_store {[ "test-ip" := {| count := 2; resetTime := 1000 |} ]} test_limiter)
    = Normal (false, this')
    ∧ store this' !! "test-ip" = Some {| count := 2 + 1; resetTime := 1000 |}
    ∧ returned (getCount "test-ip" this') = Some (2 + 1).
Proof.
  apply (admitted_call_counts_once
           (with_store {[ "test-ip" := {| count := 2; resetTime := 1000 |} ]}
                       test_limiter)
           "test-ip" {| count := 2; resetTime := 1000 |} 5 7).
  - vm_compute. reflexivity.
  - unfold live. simpl. lia.
  - unfold live. simpl. lia.
  - simpl. lia.
Defined.

(** X4: [isRateLimited] denies in one case only: the identifier has a
    record that is live at both clock readings of the call and whose count
    has reached [maxRequests].  In every other state the call is
    admitted. *)
Theorem denied_iff_live_and_exhausted this id t_sweep now :
  ∃ b this',
    isRateLimited t_sweep now id this = Normal (b, this')
    ∧ (b = true ↔
       ∃ r, store this !! id = Some r ∧ live t_sweep r ∧ live now r
            ∧ count r >= maxRequests this).
Proof.
  destruct (isRateLimited_lookup t_sweep now id this) as (this' & Hrun & _).
  eexists _, this'. split; [done|]. unfold verdict. rewrite lookup_swept.
  unfold live. destruct (store this !! id) as [r|]; simpl.
  - destruct (decide (t_sweep > resetTime r)); simpl.
    { split; [done|]. intros (r' & [= <-] & ? & _). lia. }
    destruct (decide (now > resetTime r)); simpl.
    { split; [done|]. intros (r' & [= <-] & _ & ? & _). lia. }
    destruct (decide (count r >= maxRequests this)); simpl.
    + split; [|done]. intros _. exists r. repeat split; [lia..|done].
    + split; [done|]. intros (r' & [= <-] & _ & _ & ?). lia.
  - split; [done|]. by intros (r' & ? & _).
Qed.

(** X5: a call leaves every other identifier's record either as it was or,
    when the sweep finds it stale, removed; it never creates or modifies a
    record of another identifier, it always leaves a record for the
    identifier it was called with, and it never changes the
    configuration. *)
Theorem isRateLimited_touches_only_identifier this id t_sweep now :
  ∃ b this',
    isRateLimited t_sweep now id this = Normal (b, this')
    ∧ same_config this' this
    ∧ is_Some (store this' !! id)
    ∧ ∀ j, j ≠ id →
           store this' !! j =
           match store this !! j with
           | Some r => if decide (t_sweep > resetTime r) then None else Some r
           | None => None
           end.
Proof.
  destruct (isRateLimited_lookup t_sweep now id this)
    as (this' & Hrun & Hid & Hother & Hcfg).
  eexists _, this'. split; [done|]. split; [done|]. split; [by eexists|].
  intros j Hj. rewrite Hother by done. apply lookup_swept.
Qed.

(** ** A whole window *)

Lemma in_window_answers_denied n :
  in_window_answers 0 (S n) = true :: in_window_answers 0 n.
Proof. unfold in_window_answers. by rewrite !Nat.min_0_r, !Nat.sub_0_r. Qed.

Lemma in_window_answers_admitted quota n :
  in_window_answers (S quota) (S n) = false :: in_window_answers quota n.
Proof. done. Qed.

(** Any number of calls inside the window of a live record. *)
Lemma requests_in_window id clock :
  ∀ this r,
    store this !! id = Some r →
    Forall (λ c, live c.1 r ∧ live c.2 r) clock →
    ∃ this',
      requests id clock this =
      Normal (in_window_answers (Z.to_nat (maxRequests this - count r))
                                (length clock), this').
Proof.
  induction clock as [|c clock IH]; intros this r Hr Hlive; [by eexists|].
  apply Forall_cons in Hlive as [[Hs Hn] Hlive].
  destruct (decide (count r >= maxRequests this)) as [Hfull|Hroom].
  - replace (Z.to_nat (maxRequests this - count r)) with 0%nat by lia.
    set (this1 := with_store (swept c.1 (store this)) this).
    destruct (IH this1 r) as [this' Hrest]; [by apply lookup_swept_live|done|].
    exists this'.
    erewrite requests_cons by (by eapply isRateLimited_denies).
    fold this1. rewrite Hrest. simpl length. rewrite in_window_answers_denied.
    simpl. by replace (Z.to_nat (maxRequests this - count r)) with 0%nat by lia.
  - destruct (Z.to_nat (maxRequests this - count r)) as [|q] eqn:Hq; [lia|].
    set (this1 := with_store (<[id := bumped r]> (swept c.1 (store this))) this).
    destruct (IH this1 (bumped r)) as [this' Hrest]; [apply lookup_insert_eq|done|].
    exists this'.
    erewrite requests_cons by (eapply isRateLimited_admits; [done..|lia]).
    fold this1. rewrite Hrest. simpl length. rewrite in_window_answers_admitted.
    simpl. by replace (Z.to_nat (maxRequests this - (count r + 1))) with q by lia.
Qed.

Lemma requests_from_opening id t0 now0 later this :
  (∀ r, store this !! id = Some r → now0 > resetTime r) →
  Forall (λ c, c.1 <= now0 + windowMs this ∧ c.2 <= now0 + windowMs this) later →
  ∃ this',
    requests id ((t0, now0) :: later) this =
    Normal (false :: in_window_answers (Z.to_nat (maxRequests this - 1))
                                       (length later), this').
Proof.
  intros Hstart Hwin.
  set (this1 := with_store (<[id := fresh now0 this]> (swept t0 (store this))) this).
  destruct (requests_in_window id later this1 (fresh now0 this))
    as [this' Hrest]; [apply lookup_insert_eq|done|].
  exists this'. erewrite (requests_cons id (t0, now0)); cycle 1.
  { apply isRateLimited_opens. intros r Hr _ Hl. apply Hstart in Hr.
    unfold live in Hl. simpl in *. lia. }
  cbn [fst snd]. fold this1. by rewrite Hrest.
Qed.

(** X6: the quota of one window, for any number of calls and any
    configuration.  When a call opens a window (the identifier has no
    record, or one the clock has passed) and the calls after it all read
    the clock inside that window, the opening call is admitted, the next
    [maxRequests - 1] calls are admitted, and every call after those is
    denied. *)
Theorem window_admits_exactly_quota this id t0 now0 later :
  (∀ r, store this !! id = Some r → now0 > resetTime r) →
  Forall (λ c, c.1 <= now0 + windowMs this ∧ c.2 <= now0 + windowMs this) later →
  ∃ this',
    requests id ((t0, now0) :: later) this =
    Normal (false :: in_window_answers (Z.to_nat (maxRequests this - 1))
                                       (length later), this').
Proof. apply requests_from_opening. Qed.

Lemma window_admits_exactly_quota_witness :
  ∃ this',
    requests "test-ip"
      [(1001, 1001); (1001, 1002); (1500, 1500); (2001, 2001); (2001, 2001);
       (2001, 2001)] exhausted_limiter =
    Normal (false :: in_window_answers
                       (Z.to_nat (maxRequests exhausted_limiter - 1))
                       (length [(1001, 1002); (1500, 1500); (2001, 2001);
                                (2001, 2001); (2001, 2001)]), this').
Proof.
  apply (window_admits_exactly_quota exhausted_limiter "test-ip" 1001 1001
           [(1001, 1002); (1500, 1500); (2001, 2001); (2001, 2001); (2001, 2001)]).
  - intros r Hr. vm_compute in Hr. injection Hr as <-. simpl. lia.
  - repeat constructor; simpl; lia.
Defined.

(** X7: a quota of 1, 0 or less still admits the call that opens a window,
    and denies every other call made inside that window. *)
Theorem nonpositive_quota_admits_opening_call this id t0 now0 later :
  maxRequests this <= 1 →
  store this !! id = None →
  Forall (λ c, c.1 <= now0 + windowMs this ∧ c.2 <= now0 + windowMs this) later →
  ∃ this',
    requests id ((t0, now0) :: later) this =
    Normal (false :: replicate (length later) true, this').
Proof.
  intros Hmax Habsent Hwin.
  destruct (requests_from_opening id t0 now0 later this) as [this' Hrun];
    [intros r; by rewrite Habsent|done|].
  exists this'. rewrite Hrun.
  replace (Z.to_nat (maxRequests this - 1)) with 0%nat by lia.
  unfold in_window_answers. by rewrite Nat.min_0_r, Nat.sub_0_r.
Qed.

Lemma nonpositive_quota_admits_opening_call_witness :
  ∃ this',
    requests "test-ip" [(0, 0); (1, 1); (2, 2)] (constructor (Some 1000) (Some 0)) =
    Normal (false :: replicate (length [(1, 1); (2, 2)]) true, this').
Proof.
  apply (nonpositive_quota_admits_opening_call (constructor (Some 1000) (Some 0))
           "test-ip" 0 0 [(1, 1); (2, 2)]).
  - simpl. lia.
  - vm_compute. reflexivity.
  - repeat constructor; simpl; lia.
Defined.

Lemma requests_born_stale id clock :
  ∀ this,
    windowMs this < 0 →
    never_goes_back clock →
    (∀ r, store this !! id = Some r → Forall (λ c, c.2 > resetTime r) clock) →
    ∃ this', requests id clock this = Normal (replicate (length clock) false, this').
Proof.
  induction clock as [|c clock IH]; intros this Hw Hback Hstale;
    [by eexists|].
  destruct Hback as [Hc Hclock].
  set (this1 := with_store (<[id := fresh c.2 this]> (swept c.1 (store this))) this).
  destruct (IH this1) as [this' Hrest]; [done|done| |].
  - intros r. simpl. rewrite lookup_insert_eq. intros [= <-].
    eapply Forall_impl; [exact Hc|]. simpl. intros c' Hc'. lia.
  - exists this'. erewrite requests_cons; cycle 1.
    { apply isRateLimited_opens. intros r Hr _ Hl.
      apply Hstale, Forall_cons in Hr as [Hr _]. unfold live in Hl. lia. }
    fold this1. by rewrite Hrest.
Qed.

(** X8: a negative [windowMs] switches the limiter off.  Every record is
    born already expired, so on a clock that never goes back every call
    for an identifier without a record is admitted, however many there
    are. *)
Theorem negative_window_never_limits this id clock :
  windowMs this < 0 →
  store this !! id = None →
  never_goes_back clock →
  ∃ this', requests id clock this = Normal (replicate (length clock) false, this').
Proof.
  intros Hw Habsent Hclock. apply requests_born_stale; [done..|].
  intros r. by rewrite Habsent.
Qed.

Lemma negative_window_never_limits_witness :
  ∃ this',
    requests "test-ip" [(5, 5); (5, 5); (5, 6); (6, 6); (7, 9)] misconfigured_limiter
    = Normal (replicate (length [(5, 5); (5, 5); (5, 6); (6, 6); (7, 9)]) false,
              this').
Proof.
  apply (negative_window_never_limits misconfigured_limiter "test-ip"
           [(5, 5); (5, 5); (5, 6); (6, 6); (7, 9)]).
  - simpl. lia.
  - vm_compute. reflexivity.
  - simpl. repeat split; repeat constructor; simpl; lia.
Defined.

(** ** reset, seen from another identifier *)

(** X9: [reset(a)] is invisible to any other identifier [b]: the record of
    [b] is untouched, and every later sequence of calls for [b] gets the
    answers it would have got without the reset. *)
Theorem reset_is_local a b clock this :
  a ≠ b →
  ∃ this',
    reset a this = Normal ((), this')
    ∧ store this' !! b = store this !! b
    ∧ returned (requests b clock this') = returned (requests b clock this).
Proof.
  intros Hne. eexists. split; [reflexivity|].
  assert (store (with_store (delete a (store this)) this) !! b = store this !! b)
    as Hb by (simpl; by apply lookup_delete_ne).
  split; [done|]. apply requests_forgot_only_expired. split; [done|by left].
Qed.

Lemma reset_is_local_witness :
  ∃ this',
    reset "192.168.1.1" exhausted_limiter = Normal ((), this')
    ∧ store this' !! "test-ip" = store exhausted_limiter !! "test-ip"
    ∧ returned (requests "test-ip" [(1, 1); (1001, 1001)] this')
      = returned (requests "test-ip" [(1, 1); (1001, 1001)] exhausted_limiter).
Proof.
  apply (reset_is_local "192.168.1.1" "test-ip" [(1, 1); (1001, 1001)]
           exhausted_limiter).
  discriminate.
Defined.

(** * The sibling class of security.ts *)

Lemma security_cleanup_swept t st : Security.cleanup t st = swept t st.
Proof. apply sweep_entries_swept. Qed.

(** X10: the class of rate-limiter.ts is the class of security.ts with the
    sweep moved in front: [isRateLimited] answers, and leaves the store,
    exactly as [cleanup()] followed by the sibling's [isRateLimited] called
    with the instance's [windowMs] and [maxRequests]; and it never
    throws. *)
Theorem isRateLimited_is_sweep_then_sibling t_sweep now id this :
  isRateLimited t_sweep now id this =
  Normal (let answer :=
            Security.isRateLimited now id (Some (windowMs this))
              (Some (maxRequests this)) (Security.cleanup t_sweep (store this)) in
          (answer.1, with_store answer.2 this)).
Proof.
  rewrite isRateLimited_run, security_cleanup_swept.
  unfold isRateLimited_no_sweep, Security.isRateLimited; simpl.
  destruct (swept t_sweep (store this) !! id) as [r|]; [|done].
  destruct (decide (now > resetTime r)); [done|].
  destruct (decide (count r >= maxRequests this)); [|done].
  simpl. done.
Qed.

(** X11: the sibling's [isRateLimited] does not sweep: whatever the
    arguments, the record of every other identifier, stale ones included,
    is still there after the call, unchanged. *)
Theorem sibling_keeps_other_records now id w m st j :
  j ≠ id →
  (Security.isRateLimited now id w m st).2 !! j = st !! j.
Proof.
  intros Hj. unfold Security.isRateLimited.
  destruct (st !! id) as [r|]; simpl; [|by rewrite lookup_insert_ne].
  destruct (decide (now > resetTime r)); simpl; [by rewrite lookup_insert_ne|].
  destruct (decide (count r >= default 100 m)); simpl; [done|].
  by rewrite lookup_insert_ne.
Qed.

Lemma sibling_keeps_other_records_witness :
  (Security.isRateLimited 5000 "192.168.1.1" None None
     (store exhausted_limiter)).2 !! "test-ip"
  = store exhausted_limiter !! "test-ip".
Proof.
  apply (sibling_keeps_other_records 5000 "192.168.1.1" None None
           (store exhausted_limiter) "test-ip").
  discriminate.
Defined.

(** X12: in the sibling class the window argument counts only when a
    window opens.  While the record of the identifier is live, a call
    gives the same answer and the same store whatever [windowMs] it is
    passed; the answer is decided by the [maxRequests] of that call
    alone. *)
Theorem sibling_ignores_window_while_live now id w w' m st r :
  st !! id = Some r →
  live now r →
  Security.isRateLimited now id w m st = Security.isRateLimited now id w' m st
  ∧ (Security.isRateLimited now id w m st).1
    = bool_decide (count r >= default 100 m).
Proof.
  unfold live, Security.isRateLimited. intros -> Hl. cbv zeta.
  destruct (decide (now > resetTime r)); [lia|]. split; [done|].
  destruct (decide (count r >= default 100 m)); simpl.
  - by rewrite bool_decide_eq_true_2.
  - by rewrite bool_decide_eq_false_2.
Qed.

Lemma sibling_ignores_window_while_live_witness :
  Security.isRateLimited 1000 "test-ip" (Some 5) (Some 4) (store exhausted_limiter)
  = Security.isRateLimited 1000 "test-ip" None (Some 4) (store exhausted_limiter)
  ∧ (Security.isRateLimited 1000 "test-ip" (Some 5) (Some 4)
       (store exhausted_limiter)).1
    = bool_decide (count exhausted_record >= default 100 (Some 4)).
Proof.
  apply (sibling_ignores_window_while_live 1000 "test-ip" (Some 5) None (Some 4)
           (store exhausted_limiter) exhausted_record).
  - vm_compute. reflexivity.
  - unfold live. simpl. lia.
Defined.

(** * The middleware *)

(** ** Strings *)

Example split_forwarded_for :
  split "," "203.0.113.7, 10.0.0.1,10.0.0.2" = ["203.0.113.7"; " 10.0.0.1"; "10.0.0.2"]
  ∧ split "," "" = [""]
  ∧ split "," "," = [""; ""]
  ∧ trim "  203.0.113.7 " = "203.0.113.7".
Proof. repeat split; reflexivity. Qed.

Lemma trimStart_first s : first_is_whitespace (trimStart s) = false.
Proof.
  induction s as [|c s IH]; simpl; [done|].
  destruct (is_whitespace c) eqn:Hc; [done|]. simpl. by rewrite Hc.
Qed.

Lemma trimEnd_last s : last_is_whitespace (trimEnd s) = false.
Proof.
  induction s as [|c s IH]; [done|]. cbn [trimEnd].
  destruct (trimEnd s) as [|d t].
  - destruct (is_whitespace c) eqn:Hc; [done|]. simpl. by rewrite Hc.
  - exact IH.
Qed.

Lemma trimEnd_first s :
  first_is_whitespace s = false → first_is_whitespace (trimEnd s) = false.
Proof.
  destruct s as [|c s]; [done|]. cbn [trimEnd first_is_whitespace]. intros Hc.
  destruct (trimEnd s); [by rewrite Hc|done].
Qed.

Lemma has_char_trimStart c s :
  has_char c s = false → has_char c (trimStart s) = false.
Proof.
  induction s as [|d s IH]; [done|]. cbn [trimStart]. intros Hs.
  destruct (is_whitespace d); [|done].
  apply IH. simpl in Hs. by apply orb_false_iff in Hs as [_ ?].
Qed.

Lemma has_char_trimEnd c s :
  has_char c s = false → has_char c (trimEnd s) = false.
Proof.
  induction s as [|d s IH]; [done|]. cbn [trimEnd]. simpl. intros Hs.
  apply orb_false_iff in Hs as [Hd Hs]. specialize (IH Hs).
  destruct (trimEnd s) as [|e t].
  - destruct (is_whitespace d); [done|]. simpl. by rewrite Hd.
  - simpl in *. by rewrite Hd, IH.
Qed.

Lemma split_head sep s :
  ∃ x xs, split sep s = x :: xs ∧ has_char sep x = false.
Proof.
  induction s as [|c s (x & xs & IH & Hx)]; simpl; [by eexists _, _|].
  destruct (Ascii.eqb c sep) eqn:Hc; [by eexists _, _|].
  rewrite IH. eexists _, _. split; [done|]. simpl. by rewrite Hc, Hx.
Qed.

Lemma split_first_entry sep x rest :
  has_char sep x = false →
  split sep (String.append x (String sep rest)) = x :: split sep rest.
Proof.
  induction x as [|c x IH]; simpl.
  - by rewrite Ascii.eqb_refl.
  - intros Hx. apply orb_false_iff in Hx as [Hc Hx]. by rewrite Hc, IH.
Qed.

(** ** The identifier of a request *)

(** [client_ip] reads the request only: it never throws and never touches
    the limiter. *)
Lemma client_ip_pure request :
  ∃ ip, ∀ this, client_ip request this = Normal (ip, this).
Proof.
  unfold client_ip.
  destruct (headers request !! "x-forwarded-for") as [[|c v]|];
    cbn [truthy_string].
  - destruct (truthy_string (headers request !! "x-real-ip")); by eexists.
  - destruct (split_head "," (String c v)) as (x & xs & Hsplit & _).
    rewrite Hsplit. by eexists.
  - destruct (truthy_string (headers request !! "x-real-ip")); by eexists.
Qed.

(** X13: when the request has a non-empty [x-forwarded-for], the
    identifier is computed without throwing and is clean: it contains no
    comma and neither starts nor ends with white space. *)
Theorem forwarded_ip_is_clean request this v :
  headers request !! "x-forwarded-for" = Some v →
  v ≠ "" →
  ∃ ip,
    client_ip request this = Normal (ip, this)
    ∧ has_char "," ip = false
    ∧ first_is_whitespace ip = false
    ∧ last_is_whitespace ip = false.
Proof.
  intros Hv Hne. unfold client_ip. rewrite Hv.
  destruct v as [|c v]; [done|]. cbn [truthy_string].
  destruct (split_head "," (String c v)) as (x & xs & -> & Hx).
  exists (trim x). split; [done|]. unfold trim. split; [|split].
  - by apply has_char_trimEnd, has_char_trimStart.
  - apply trimEnd_first, trimStart_first.
  - apply trimEnd_last.
Qed.

Lemma forwarded_ip_is_clean_witness :
  ∃ ip,
    client_ip {| pathname := "/api/submit";
                 headers := {[ "x-forwarded-for" := " 203.0.113.7 , 10.0.0.1" ]} |}
      rateLimiter = Normal (ip, rateLimiter)
    ∧ has_char "," ip = false
    ∧ first_is_whitespace ip = false
    ∧ last_is_whitespace ip = false.
Proof.
  apply (forwarded_ip_is_clean
           {| pathname := "/api/submit";
              headers := {[ "x-forwarded-for" := " 203.0.113.7 , 10.0.0.1" ]} |}
           rateLimiter " 203.0.113.7 , 10.0.0.1").
  - vm_compute. reflexivity.
  - discriminate.
Defined.

(** X14: only the first entry of [x-forwarded-for] counts.  When the
    header is [x], a comma and anything else, with no comma in [x], the
    identifier is [x] trimmed, whatever follows the comma; an empty first
    entry gives the empty identifier, not the ["unknown"] fallback. *)
Theorem forwarded_ip_is_first_entry request this x rest :
  has_char "," x = false →
  headers request !! "x-forwarded-for" = Some (String.append x (String "," rest)) →
  client_ip request this = Normal (trim x, this).
Proof.
  intros Hx Hv. unfold client_ip. rewrite Hv.
  replace (truthy_string (Some (String.append x (String "," rest)))) with true
    by (by destruct x).
  by rewrite split_first_entry.
Qed.

Lemma forwarded_ip_is_first_entry_witness :
  client_ip {| pathname := "/api/submit";
               headers := {[ "x-forwarded-for" := " ,10.0.0.1" ]} |} rateLimiter
  = Normal (trim " ", rateLimiter).
Proof.
  apply (forwarded_ip_is_first_entry
           {| pathname := "/api/submit";
              headers := {[ "x-forwarded-for" := " ,10.0.0.1" ]} |}
           rateLimiter " " "10.0.0.1").
  - reflexivity.
  - vm_compute. reflexivity.
Defined.

(** ** One request *)

(** X15: [middleware] never throws.  A request whose path does not start
    with [/api/] gets the pass-through response and leaves the limiter
    untouched, with no sweep and no count.  A request under [/api/] makes
    exactly one [isRateLimited] call, for the identifier of the request,
    and gets the 429 reply when that call denies and the pass-through
    response when it admits. *)
Theorem middleware_decision t_sweep now request this :
  ∃ r this',
    middleware t_sweep now request this = Normal (r, this')
    ∧ if String.prefix "/api/" (pathname request) then
        ∃ ip limited,
          client_ip request this = Normal (ip, this)
          ∧ isRateLimited t_sweep now ip this = Normal (limited, this')
          ∧ r = response_to limited
      else r = secured_next ∧ this' = this.
Proof.
  unfold middleware.
  destruct (String.prefix "/api/" (pathname request)); [|by eexists _, _].
  destruct (client_ip_pure request) as [ip Hip].
  destruct (isRateLimited_total t_sweep now ip this) as (limited & this' & Hrun).
  exists (response_to limited), this'. split; [|by eexists _, _].
  unfold mbind, method_bind. rewrite Hip, Hrun. by destruct limited.
Qed.

(** ** Traffic *)

Lemma serve_cons x traffic this r this' :
  middleware x.1.1 x.1.2 x.2 this = Normal (r, this') →
  serve (x :: traffic) this =
  match serve traffic this' with
  | Normal (rs, this'') => Normal (r :: rs, this'')
  | Thrown e => Thrown e
  end.
Proof.
  destruct x as [[t now] request]; simpl. intros Hrun.
  unfold mbind at 1. unfold method_bind at 1. rewrite Hrun.
  unfold mbind, method_bind. by destruct (serve traffic this') as [[rs ?]|].
Qed.

Lemma middleware_api t_sweep now request this0 this id :
  String.prefix "/api/" (pathname request) = true →
  returned (client_ip request this0) = Some id →
  middleware t_sweep now request this =
  match isRateLimited t_sweep now id this with
  | Normal (limited, this') => Normal (response_to limited, this')
  | Thrown e => Thrown e
  end.
Proof.
  intros Hapi Hid. destruct (client_ip_pure request) as [ip Hip].
  rewrite Hip in Hid. injection Hid as ->.
  unfold middleware. rewrite Hapi. unfold mbind, method_bind. rewrite Hip.
  destruct (isRateLimited t_sweep now id this) as [[[] ?]|]; done.
Qed.

(** API traffic charged to one identifier is a sequence of calls for that
    identifier. *)
Lemma serve_one_identifier id this0 traffic :
  Forall (λ x, String.prefix "/api/" (pathname x.2) = true
               ∧ returned (client_ip x.2 this0) = Some id) traffic →
  ∀ this,
    serve traffic this =
    match requests id traffic.*1 this with
    | Normal (bs, this') => Normal (response_to <$> bs, this')
    | Thrown e => Thrown e
    end.
Proof.
  induction 1 as [|x traffic [Hapi Hid] _ IH]; intros this; [done|].
  destruct (isRateLimited_total x.1.1 x.1.2 id this) as (b & this1 & H1).
  erewrite serve_cons; cycle 1.
  { erewrite middleware_api by done. by rewrite H1. }
  rewrite fmap_cons. erewrite requests_cons by done. rewrite IH.
  by destruct (requests id traffic.*1 this1) as [[bs ?]|].
Qed.

(** X16: requests that [middleware] charges to the same identifier share
    one quota of the singleton limiter.  From a fresh [rateLimiter], when
    every request is under [/api/], is charged to [id], and reads the
    clock within 60000 ms of the first one, the first 100 requests pass
    and every later one gets the 429 reply. *)
Theorem one_identifier_one_quota id t0 now0 request0 later :
  Forall (λ x, String.prefix "/api/" (pathname x.2) = true
               ∧ returned (client_ip x.2 rateLimiter) = Some id)
         ((t0, now0, request0) :: later) →
  Forall (λ x, x.1.1 <= now0 + 60000 ∧ x.1.2 <= now0 + 60000) later →
  ∃ this',
    serve ((t0, now0, request0) :: later) rateLimiter =
    Normal (secured_next
              :: (response_to <$> in_window_answers 99 (length later)),
            this').
Proof.
  intros Hcharged Hwin.
  destruct (requests_from_opening id t0 now0 later.*1 rateLimiter)
    as [this' Hrun].
  - intros r. unfold rateLimiter. simpl. by rewrite lookup_empty.
  - apply Forall_fmap. eapply Forall_impl; [exact Hwin|]. by intros [[? ?] ?].
  - exists this'. rewrite (serve_one_identifier id rateLimiter) by done.
    rewrite fmap_cons. cbn [fst]. rewrite Hrun, length_fmap. done.
Qed.

Lemma one_identifier_one_quota_witness :
  ∃ this',
    serve [(0, 0, {| pathname := "/api/config"; headers := ∅ |});
           (1, 1, {| pathname := "/api/submit";
                     headers := {[ "x-real-ip" := "unknown" ]} |});
           (2, 2, {| pathname := "/api/submit";
                     headers := {[ "x-forwarded-for" := " unknown , 10.0.0.1" ]} |})]
          rateLimiter =
    Normal (secured_next
              :: (response_to <$>
                  in_window_answers 99
                    (length
                       [(1, 1, {| pathname := "/api/submit";
                                  headers := {[ "x-real-ip" := "unknown" ]} |});
                        (2, 2, {| pathname := "/api/submit";
                                  headers :=
                                    {[ "x-forwarded-for" := " unknown , 10.0.0.1" ]} |})])),
            this').
Proof.
  apply (one_identifier_one_quota "unknown" 0 0
           {| pathname := "/api/config"; headers := ∅ |}
           [(1, 1, {| pathname := "/api/submit";
                      headers := {[ "x-real-ip" := "unknown" ]} |});
            (2, 2, {| pathname := "/api/submit";
                      headers := {[ "x-forwarded-for" := " unknown , 10.0.0.1" ]} |})]).
  - repeat constructor; vm_compute; reflexivity.
  - repeat constructor; simpl; lia.
Defined.

(** The singleton denies the 101st anonymous API request of a minute. *)
Example anonymous_traffic_hits_the_quota :
  returned (serve (replicate 101 (0, 0, {| pathname := "/api/config"; headers := ∅ |}))
                  rateLimiter)
  = Some (replicate 100 secured_next ++ [too_many_requests]).
Proof. vm_compute. reflexivity. Qed.
